(** * cachedhash: a value wrapper that memoises its own hash digest

    Shallow embedding of [src/src/atomic.rs] and [src/src/cachedhash.rs].

    - A [u64] is a [Z].  [NonZeroU64] is a [Z] together with a proof that it
      is not 0, so that [Option<NonZeroU64>] is [option NonZeroU64].
    - The [AtomicU64] inside [AtomicOptionNonZeroU64] is interior-mutable: it
      is written through shared references ([Hash::hash] takes [&self]).  It is
      therefore a location of an explicit heap of 64-bit words, and every
      operation runs in a small state monad over a [world] holding the heap.
    - A dangling location (never the case for a live Rust value) and a
      [panic!] ([unwrap] on [None]) are both a failed computation ([None]).
    - The world also records a trace of the calls made to the digest provider:
      [EvBuildHasher] for [build_hasher.build_hasher()] and [EvValueHash] for
      [value.hash(&mut hasher)], so that "the provider is not invoked" is a
      statement about the trace. *)

From Stdlib Require Import ZArith Lia.
From stdpp Require Import base gmap list strings pretty.

Open Scope Z_scope.

(** ** [std::num::NonZeroU64] *)

Definition NonZeroU64 : Type := { n : Z | Z.eqb n 0 = false }.

(** [NonZeroU64::new] *)
Definition NonZeroU64_new (x : Z) : option NonZeroU64 :=
  match Z.eq_dec x 0 with
  | left _ => None
  | right H => Some (exist _ x (proj2 (Z.eqb_neq x 0) H))
  end.

(** [impl From<NonZeroU64> for u64] *)
Definition nz_into (n : NonZeroU64) : Z := proj1_sig n.

(** [Option::unwrap_or] *)
Definition unwrap_or {A} (o : option A) (d : A) : A :=
  match o with Some a => a | None => d end.

(** ** The heap of atomic words and the state monad *)

Definition loc := positive.

Inductive event := EvBuildHasher | EvValueHash.

Record world := mkWorld {
  heap : gmap loc Z;
  next_loc : loc;
  trace : list event
}.

Definition M (A : Type) : Type := world -> option (A * world).

Definition ret {A} (a : A) : M A := fun w => Some (a, w).

Definition bind {A B} (m : M A) (k : A -> M B) : M B :=
  fun w => match m w with Some (a, w') => k a w' | None => None end.

Notation "x <- m ;; k" := (bind m (fun x => k))
  (at level 100, m at next level, right associativity).

(** [panic!] *)
Definition panic {A} : M A := fun _ => None.

(** [Option::unwrap] *)
Definition unwrap {A} (o : option A) : M A :=
  match o with Some a => ret a | None => panic end.

(** A relaxed atomic load. *)
Definition load (l : loc) : M Z :=
  fun w => match heap w !! l with Some z => Some (z, w) | None => None end.

(** A relaxed atomic store. *)
Definition store (l : loc) (z : Z) : M unit :=
  fun w => match heap w !! l with
           | Some _ => Some (tt, mkWorld (<[l := z]> (heap w)) (next_loc w) (trace w))
           | None => None
           end.

(** [AtomicU64::new]: a fresh word. *)
Definition alloc (z : Z) : M loc :=
  fun w => Some (next_loc w,
                 mkWorld (<[next_loc w := z]> (heap w)) (Pos.succ (next_loc w)) (trace w)).

Definition emit (e : event) : M unit :=
  fun w => Some (tt, mkWorld (heap w) (next_loc w) (trace w ++ [e])).

(** ** [src/src/atomic.rs] *)

(** [#[repr(transparent)] pub struct AtomicOptionNonZeroU64(AtomicU64);] *)
Record AtomicOptionNonZeroU64 := mkAtomic { cell : loc }.

Module Atomic.

Definition new_none : M AtomicOptionNonZeroU64 :=
  l <- alloc 0 ;; ret (mkAtomic l).

Definition new_some (value : NonZeroU64) : M AtomicOptionNonZeroU64 :=
  l <- alloc (nz_into value) ;; ret (mkAtomic l).

Definition get (a : AtomicOptionNonZeroU64) : M (option NonZeroU64) :=
  value <- load (cell a) ;;
  if Z.eqb value 0 then ret None
  else n <- unwrap (NonZeroU64_new value) ;; ret (Some n).

Definition get_raw (a : AtomicOptionNonZeroU64) : M (option Z) :=
  value <- load (cell a) ;;
  if Z.eqb value 0 then ret None else ret (Some value).

Definition set (a : AtomicOptionNonZeroU64) (value : option NonZeroU64) : M unit :=
  let value := unwrap_or (option_map nz_into value) 0 in
  store (cell a) value.

(** [impl Clone for AtomicOptionNonZeroU64] *)
Definition clone (a : AtomicOptionNonZeroU64) : M AtomicOptionNonZeroU64 :=
  v <- load (cell a) ;; l <- alloc v ;; ret (mkAtomic l).

(** [impl Default for AtomicOptionNonZeroU64] *)
Definition default : M AtomicOptionNonZeroU64 := new_none.

(** [impl Debug for AtomicOptionNonZeroU64]: the text written to the
    formatter ([Display] of a [NonZeroU64] is its decimal form). *)
Definition fmt (a : AtomicOptionNonZeroU64) : M string :=
  o <- get a ;;
  match o with
  | Some value => ret (String.append "Some("%string
                         (String.append (pretty (nz_into value)) ")"%string))
  | None => ret "None"%string
  end.

End Atomic.

(** ** The traits of [std::hash], [std::cmp] and [std::clone] *)

(** [std::hash::Hasher]: [write_u64] and [finish]. *)
Class Hasher (S : Type) := {
  Hasher_write_u64 : S -> Z -> S;
  Hasher_finish : S -> Z
}.

(** [std::hash::BuildHasher] whose associated [Hasher] is [S]. *)
Class BuildHasher (B S : Type) := BuildHasher_build_hasher : B -> S.

(** [std::hash::Hash] of [T], at the hasher type [S]. *)
Class Hash (T S : Type) := Hash_hash : T -> S -> S.

Class PartialEq (T : Type) := PartialEq_eq : T -> T -> bool.

Class Clone (T : Type) := Clone_clone : T -> T.

Class Default (T : Type) := Default_default : T.

(** ** [src/src/cachedhash.rs] *)

Module CachedHash.

Section Defs.

Context {T BH HS : Type}.
Context `{!Hasher HS, !BuildHasher BH HS, !Hash T HS}.

Record CachedHash := mkCachedHash {
  value : T;
  hash : AtomicOptionNonZeroU64;
  build_hasher : BH
}.

Definition new_with_build_hasher (value : T) (build_hasher : BH) : M CachedHash :=
  h <- Atomic.new_none ;; ret (mkCachedHash value h build_hasher).

(** [BuildHasherDefault::default()] *)
Definition new_with_hasher `{!Default BH} (value : T) : M CachedHash :=
  new_with_build_hasher value Default_default.

Definition new `{!Default BH} (value : T) : M CachedHash :=
  new_with_hasher value.

(** [invalidate_hash(this: &mut Self)]: the result is [this] after the call. *)
Definition invalidate_hash (this : CachedHash) : M CachedHash :=
  _ <- Atomic.set (hash this) None ;; ret this.

Definition take_value (this : CachedHash) : T := value this.

Definition get (this : CachedHash) : T := value this.

(** [get_mut(this: &mut Self) -> &mut T]: the result is [this] after the call
    and the target of the returned reference. *)
Definition get_mut (this : CachedHash) : M (CachedHash * T) :=
  this <- invalidate_hash this ;; ret (this, value this).

(** The caller of [get_mut] writing [f r] through the returned reference [r]. *)
Definition write_through (this : CachedHash) (r : T) (f : T -> T) : CachedHash :=
  mkCachedHash (f r) (hash this) (build_hasher this).

Definition eq_impl `{!PartialEq T} (self other : CachedHash) : bool :=
  PartialEq_eq (value self) (value other).

(** [impl Hash for CachedHash]: [fn hash<H2: Hasher>(&self, state: &mut H2)]. *)
Definition hash_impl {H2} `{!Hasher H2} (self : CachedHash) (state : H2) : M H2 :=
  o <- Atomic.get_raw (hash self) ;;
  match o with
  | Some hash => ret (Hasher_write_u64 state hash)
  | None =>
      _ <- emit EvBuildHasher ;;
      let hasher := BuildHasher_build_hasher (build_hasher self) in
      _ <- emit EvValueHash ;;
      let hasher := Hash_hash (value self) hasher in
      one <- unwrap (NonZeroU64_new 1) ;;
      (* the local [let hash] of the source, renamed so as not to hide the field *)
      let h := unwrap_or (NonZeroU64_new (Hasher_finish hasher)) one in
      _ <- Atomic.set (hash self) (Some h) ;;
      ret (Hasher_write_u64 state (nz_into h))
  end.

Definition as_mut := get_mut.
Definition as_ref := get.
Definition borrow_mut := get_mut.
Definition borrow := get.
Definition deref := get.
Definition deref_mut := get_mut.

Definition from `{!Default BH} (value : T) : M CachedHash := new_with_hasher value.

Definition clone_impl `{!Clone T, !Clone BH} (self : CachedHash) : M CachedHash :=
  h <- Atomic.clone (hash self) ;;
  ret (mkCachedHash (Clone_clone (value self)) h (Clone_clone (build_hasher self))).

End Defs.

(** *** Programs over a collection of live [CachedHash] values

    A client program is a sequence of calls on the instances it owns, which
    are numbered by their position in a list.  [new] and [new_with_hasher] are
    [new_with_build_hasher] at [BuildHasherDefault::default()]; [deref],
    [as_ref] and [borrow] are [get]; [deref_mut], [as_mut] and [borrow_mut] are
    [get_mut]. *)

Section Machine.

Context {T BH HS H2 : Type}.
Context `{!Hasher HS, !BuildHasher BH HS, !Hash T HS, !Hasher H2}.
Context `{!Clone T, !Clone BH, !PartialEq T}.

Inductive op :=
| OpNew (v : T) (bh : BH)
| OpGet (i : nat)
| OpGetMut (i : nat) (f : T -> T)
| OpInvalidate (i : nat)
| OpHash (i : nat) (state : H2)
| OpClone (i : nat)
| OpTake (i : nat)
| OpEq (i j : nat).

Definition step (o : op) (cs : list (@CachedHash T BH)) : M (list (@CachedHash T BH)) :=
  match o with
  | OpNew v bh => c <- new_with_build_hasher v bh ;; ret (cs ++ [c])
  | OpGet i => c <- unwrap (cs !! i) ;; let _ := get c in ret cs
  | OpGetMut i f =>
      c <- unwrap (cs !! i) ;; p <- get_mut c ;;
      ret (<[i := write_through p.1 p.2 f]> cs)
  | OpInvalidate i => c <- unwrap (cs !! i) ;; c <- invalidate_hash c ;; ret (<[i := c]> cs)
  | OpHash i state => c <- unwrap (cs !! i) ;; _ <- hash_impl c state ;; ret cs
  | OpClone i => c <- unwrap (cs !! i) ;; c' <- clone_impl c ;; ret (cs ++ [c'])
  | OpTake i => c <- unwrap (cs !! i) ;; let _ := take_value c in ret (delete i cs)
  | OpEq i j =>
      a <- unwrap (cs !! i) ;; b <- unwrap (cs !! j) ;; let _ := eq_impl a b in ret cs
  end.

Fixpoint run (ops : list op) (cs : list (@CachedHash T BH)) : M (list (@CachedHash T BH)) :=
  match ops with
  | [] => ret cs
  | o :: ops => cs <- step o cs ;; run ops cs
  end.

End Machine.

(** The digest the stored build-hasher computes over a value, with 0 remapped
    to 1: what the cache-consistency invariant compares the slot with. *)
Definition digest {T BH HS} `{!Hasher HS, !BuildHasher BH HS, !Hash T HS}
    (bh : BH) (v : T) : Z :=
  let r := Hasher_finish (Hash_hash v (BuildHasher_build_hasher bh)) in
  if Z.eqb r 0 then 1 else r.

(** Repeated hashing of one instance, with one accumulator per call. *)
Fixpoint hash_all {T BH HS H2} `{!Hasher HS, !BuildHasher BH HS, !Hash T HS, !Hasher H2}
    (c : @CachedHash T BH) (states : list H2) : M (list H2) :=
  match states with
  | [] => ret []
  | st :: states => st' <- hash_impl c st ;; sts <- hash_all c states ;; ret (st' :: sts)
  end.

(** A sequence of [&self] hashing calls and [invalidate_hash] calls on one instance. *)
Inductive hop (H2 : Type) := HHash (state : H2) | HInvalidate.
Arguments HHash {H2} state.
Arguments HInvalidate {H2}.

Fixpoint run_hops {T BH HS H2} `{!Hasher HS, !BuildHasher BH HS, !Hash T HS, !Hasher H2}
    (this : @CachedHash T BH) (hops : list (hop H2)) : M (@CachedHash T BH) :=
  match hops with
  | [] => ret this
  | HHash st :: hops => _ <- hash_impl this st ;; run_hops this hops
  | HInvalidate :: hops => this <- invalidate_hash this ;; run_hops this hops
  end.

End CachedHash.

(** ** A concrete instantiation, used to run the operations on examples

    [Z] values hashed by a pass-through hasher (the last word written is the
    digest, as with [nohash_hasher::NoHashHasher<u64>]), a unit build-hasher,
    and a recording accumulator on the caller's side. *)

#[export] Instance nohash_hasher : Hasher Z := {
  Hasher_write_u64 := fun _ x => x;
  Hasher_finish := fun s => s
}.

#[export] Instance recording_hasher : Hasher (list Z) := {
  Hasher_write_u64 := fun st x => st ++ [x];
  Hasher_finish := fun _ => 0
}.

#[export] Instance unit_build_hasher : BuildHasher unit Z := fun _ => 0.

#[export] Instance Z_hash : Hash Z Z := fun v s => Hasher_write_u64 s v.

#[export] Instance Z_eq : PartialEq Z := Z.eqb.

#[export] Instance Z_clone : Clone Z := fun v => v.

#[export] Instance unit_clone : Clone unit := fun u => u.

#[export] Instance unit_default : Default unit := tt.

Definition empty_world : world := mkWorld ∅ 1%positive [].

(** A world with one slot, at location 1, holding [z]. *)
Definition world_one_slot (z : Z) : world := mkWorld {[1%positive := z]} 2%positive [].

Definition example_c (v : Z) (l : loc) : @CachedHash.CachedHash Z unit :=
  CachedHash.mkCachedHash v (mkAtomic l) tt.

Arguments example_c v%_Z l%_positive.
Arguments mkAtomic cell%_positive.

(** Build [5], hash it, clone it, add 1 to the clone through [get_mut], hash
    the clone, invalidate the original and hash it again. *)
Definition example_program : list (@CachedHash.op Z unit (list Z)) :=
  [CachedHash.OpNew 5 tt; CachedHash.OpHash 0 []; CachedHash.OpClone 0;
   CachedHash.OpGetMut 1 (fun x => x + 1); CachedHash.OpHash 1 [];
   CachedHash.OpInvalidate 0; CachedHash.OpHash 0 [7]].

Definition example_world : world :=
  match CachedHash.run (HS := Z) example_program [] empty_world with
  | Some (_, w) => w
  | None => empty_world
  end.

(** Location bookkeeping: every allocated word lies below [next_loc]. *)
Definition heap_bounded (w : world) : Prop :=
  map_Forall (fun l _ => (l < next_loc w)%positive) (heap w).

(** The cache-consistency invariant of a client program's state: the world
    is well formed, distinct live instances own distinct slots, and every live
    instance's slot is allocated and, when non-zero, holds the digest its
    build-hasher computes over its current value. *)
Definition slot_consistent {T BH HS} `{!Hasher HS, !BuildHasher BH HS, !Hash T HS}
    (w : world) (c : @CachedHash.CachedHash T BH) : Prop :=
  exists z, heap w !! cell (CachedHash.hash c) = Some z /\
            (z <> 0 -> z = CachedHash.digest (CachedHash.build_hasher c) (CachedHash.value c)).

Definition cache_inv {T BH HS} `{!Hasher HS, !BuildHasher BH HS, !Hash T HS}
    (cs : list (@CachedHash.CachedHash T BH)) (w : world) : Prop :=
  heap_bounded w /\
  (forall i j ci cj, cs !! i = Some ci -> cs !! j = Some cj ->
     cell (CachedHash.hash ci) = cell (CachedHash.hash cj) -> i = j) /\
  (forall i c, cs !! i = Some c -> slot_consistent w c).

(** ** Proofs *)

Lemma nz_into_neq0 (n : NonZeroU64) : nz_into n <> 0.
Proof. destruct n as [x Hx]; simpl. apply Z.eqb_neq. exact Hx. Qed.

Lemma NonZeroU64_new_into (x : Z) :
  option_map nz_into (NonZeroU64_new x) = if Z.eqb x 0 then None else Some x.
Proof.
  unfold NonZeroU64_new. destruct (Z.eq_dec x 0) as [->|H]; [reflexivity|].
  simpl. apply Z.eqb_neq in H. rewrite H. reflexivity.
Qed.

Lemma NonZeroU64_new_nonzero (x : Z) : x <> 0 -> exists n, NonZeroU64_new x = Some n /\ nz_into n = x.
Proof.
  intros Hx. pose proof (NonZeroU64_new_into x) as E.
  apply Z.eqb_neq in Hx. rewrite Hx in E.
  destruct (NonZeroU64_new x) as [n|]; simpl in E; [|discriminate].
  exists n. split; [reflexivity | congruence].
Qed.

Lemma NonZeroU64_new_zero : NonZeroU64_new 0 = None.
Proof. reflexivity. Qed.

Lemma bind_Some {A B} (m : M A) (k : A -> M B) w a w' :
  m w = Some (a, w') -> bind m k w = k a w'.
Proof. intros H. unfold bind. rewrite H. reflexivity. Qed.

Ltac unfold_m :=
  unfold bind, ret, load, store, alloc, emit, panic, unwrap in *.

(** Atomic slot: reads and writes. *)
Lemma get_raw_spec a w z :
  heap w !! cell a = Some z ->
  Atomic.get_raw a w = Some ((if Z.eqb z 0 then None else Some z), w).
Proof. intros H. unfold Atomic.get_raw; unfold_m. rewrite H. destruct (Z.eqb z 0); reflexivity. Qed.

Lemma set_spec a v w :
  is_Some (heap w !! cell a) ->
  Atomic.set a v w = Some (tt, mkWorld (<[cell a := unwrap_or (option_map nz_into v) 0]> (heap w))
                               (next_loc w) (trace w)).
Proof. intros [z H]. unfold Atomic.set; unfold_m. rewrite H. reflexivity. Qed.

(** C7 *)
(** Claim C7: a fresh slot reads as empty; after [set None] the raw read returns
    [None]; after [set (Some v)] (with [v] non-zero, enforced by the type
    [NonZeroU64]) it returns [Some v]; and [get_raw] returns [None] exactly when
    the backing word is 0, otherwise the word itself, leaving the world
    unchanged. *)
Theorem atomic_read_write_roundtrip :
  (forall w, exists a w', Atomic.new_none w = Some (a, w') /\ Atomic.get_raw a w' = Some (None, w')) /\
  (forall a w, is_Some (heap w !! cell a) ->
     exists w', Atomic.set a None w = Some (tt, w') /\ Atomic.get_raw a w' = Some (None, w')) /\
  (forall a (v : NonZeroU64) w, is_Some (heap w !! cell a) ->
     exists w', Atomic.set a (Some v) w = Some (tt, w') /\
                Atomic.get_raw a w' = Some (Some (nz_into v), w')) /\
  (forall a w z, heap w !! cell a = Some z ->
     Atomic.get_raw a w = Some ((if Z.eqb z 0 then None else Some z), w) /\
     (Atomic.get_raw a w = Some (None, w) <-> z = 0)).
Proof.
  split; [|split; [|split]].
  - intros w. unfold Atomic.new_none; unfold_m. eexists _, _. split; [reflexivity|].
    rewrite (get_raw_spec _ _ 0); [reflexivity | simpl; apply lookup_insert_eq].
  - intros a w Ha. eexists. split; [apply set_spec; exact Ha|].
    rewrite (get_raw_spec _ _ 0); [reflexivity | simpl; apply lookup_insert_eq].
  - intros a v w Ha. eexists. split; [apply set_spec; exact Ha|].
    rewrite (get_raw_spec _ _ (nz_into v)); [|simpl; apply lookup_insert_eq].
    pose proof (nz_into_neq0 v) as Hv. apply Z.eqb_neq in Hv. rewrite Hv. reflexivity.
  - intros a w z H. rewrite (get_raw_spec _ _ _ H). split; [reflexivity|].
    destruct (Z.eqb z 0) eqn:E.
    + apply Z.eqb_eq in E. tauto.
    + apply Z.eqb_neq in E. split; [congruence | tauto].
Qed.

Module CachedHashProofs.
Import CachedHash.

Section Hashing.

Context {T BH HS H2 : Type}.
Context `{!Hasher HS, !BuildHasher BH HS, !Hash T HS, !Hasher H2}.

Implicit Types (c : @CachedHash T BH) (w : world) (st : H2).

Lemma unwrap_or_remap (r : Z) (one : NonZeroU64) :
  nz_into one = 1 ->
  nz_into (unwrap_or (NonZeroU64_new r) one) = if Z.eqb r 0 then 1 else r.
Proof.
  intros H1. pose proof (NonZeroU64_new_into r) as E.
  destruct (NonZeroU64_new r) as [n|]; simpl in *;
    destruct (Z.eqb r 0); congruence.
Qed.

Lemma NonZeroU64_new_one : exists one, NonZeroU64_new 1 = Some one /\ nz_into one = 1.
Proof. apply NonZeroU64_new_nonzero. lia. Qed.

(** The fast path: a present digest is fed as it is, nothing else happens. *)
Lemma hash_impl_hit c st w d :
  heap w !! cell (hash c) = Some d -> d <> 0 ->
  hash_impl c st w = Some (Hasher_write_u64 st d, w).
Proof.
  intros H Hd. unfold hash_impl. unfold bind at 1.
  rewrite (get_raw_spec _ _ _ H). apply Z.eqb_neq in Hd. rewrite Hd. reflexivity.
Qed.

(** The slow path: the provider runs once and the remapped digest is stored. *)
Lemma hash_impl_miss c st w :
  heap w !! cell (hash c) = Some 0 ->
  hash_impl c st w =
    Some (Hasher_write_u64 st (digest (build_hasher c) (value c)),
          mkWorld (<[cell (hash c) := digest (build_hasher c) (value c)]> (heap w))
                  (next_loc w) ((trace w ++ [EvBuildHasher]) ++ [EvValueHash])).
Proof.
  intros H. unfold hash_impl. unfold bind at 1.
  rewrite (get_raw_spec _ _ _ H). simpl.
  unfold_m. simpl. unfold Atomic.set, store. simpl. rewrite H.
  rewrite unwrap_or_remap by reflexivity. reflexivity.
Qed.

Lemma digest_neq0 (bh : BH) (v : T) : digest bh v <> 0.
Proof. unfold digest. destruct (Z.eqb _ 0) eqn:E; [lia|]. apply Z.eqb_neq in E. exact E. Qed.

Lemma hash_all_hit c sts w d :
  heap w !! cell (hash c) = Some d -> d <> 0 ->
  hash_all c sts w = Some (map (fun st => Hasher_write_u64 st d) sts, w).
Proof.
  intros H Hd. induction sts as [|st sts IH]; [reflexivity|].
  simpl. unfold bind at 1. rewrite (hash_impl_hit _ _ _ _ H Hd).
  unfold bind. rewrite IH. reflexivity.
Qed.

(** C2 *)
(** Claim C2: once the digest is present (no mutable access or invalidation
    since it was computed), a hashing call takes the fast path: it feeds the
    stored digest and leaves the world, including the provider trace,
    unchanged.  Across any non-empty run of hashing calls the provider
    ([build_hasher] then [value.hash]) runs exactly once if the slot was empty
    at the start and never if it was full, and every call feeds the same
    digest. *)
Theorem hash_compute_once c w z :
  heap w !! cell (hash c) = Some z ->
  (forall d st, Atomic.get_raw (hash c) w = Some (Some d, w) ->
     hash_impl c st w = Some (Hasher_write_u64 st d, w)) /\
  (forall st sts, exists w',
     let d := if Z.eqb z 0 then digest (build_hasher c) (value c) else z in
     hash_all c (st :: sts) w = Some (map (fun st => Hasher_write_u64 st d) (st :: sts), w') /\
     trace w' = trace w ++ (if Z.eqb z 0 then [EvBuildHasher; EvValueHash] else [])).
Proof.
  intros H. split.
  - intros d st Hd. rewrite (get_raw_spec _ _ _ H) in Hd.
    destruct (Z.eqb z 0) eqn:E; [discriminate|]. injection Hd as <-.
    apply hash_impl_hit; [exact H|]. apply Z.eqb_neq. exact E.
  - intros st sts. destruct (Z.eqb z 0) eqn:E.
    + apply Z.eqb_eq in E. subst z.
      eexists. simpl. unfold bind at 1. rewrite (hash_impl_miss _ _ _ H).
      unfold bind. rewrite (hash_all_hit _ _ _ (digest (build_hasher c) (value c))).
      * split; [reflexivity|]. simpl. rewrite <- app_assoc. reflexivity.
      * simpl. apply lookup_insert_eq.
      * apply digest_neq0.
    + exists w. rewrite app_nil_r. split; [|reflexivity].
      apply hash_all_hit; [exact H|]. apply Z.eqb_neq. exact E.
Qed.

Lemma atomic_get_spec a w z :
  heap w !! cell a = Some z ->
  (z = 0 -> Atomic.get a w = Some (None, w)) /\
  (z <> 0 -> exists n, Atomic.get a w = Some (Some n, w) /\ nz_into n = z).
Proof.
  intros H. unfold Atomic.get, bind, load, ret, unwrap. rewrite H. split.
  - intros ->. reflexivity.
  - intros Hz. destruct (NonZeroU64_new_nonzero z Hz) as [n [Hn Hnz]].
    exists n. apply Z.eqb_neq in Hz. rewrite Hz, Hn. split; [reflexivity | exact Hnz].
Qed.

(** C4 *)
(** Claim C4: when the slot is empty and the raw digest computed by the
    provider is 0, hashing stores 1 in the slot and feeds 1 to the caller's
    accumulator, and afterwards the slot's presence check [get] reports a
    stored value; for a non-zero raw digest [r], [r] itself is stored and
    fed. *)
Theorem zero_digest_remap c st w :
  heap w !! cell (hash c) = Some 0 ->
  let r := Hasher_finish (Hash_hash (value c) (BuildHasher_build_hasher (build_hasher c))) in
  exists w',
    (r = 0 ->
       hash_impl c st w = Some (Hasher_write_u64 st 1, w') /\
       heap w' !! cell (hash c) = Some 1 /\
       exists n, Atomic.get (hash c) w' = Some (Some n, w') /\ nz_into n = 1) /\
    (r <> 0 ->
       hash_impl c st w = Some (Hasher_write_u64 st r, w') /\
       heap w' !! cell (hash c) = Some r).
Proof.
  intros H r. rewrite (hash_impl_miss _ _ _ H).
  exists (mkWorld (<[cell (hash c) := digest (build_hasher c) (value c)]> (heap w))
                  (next_loc w) ((trace w ++ [EvBuildHasher]) ++ [EvValueHash])).
  split.
  - intros Hr. unfold digest. fold r. rewrite Hr. simpl.
    split; [reflexivity|]. split; [apply lookup_insert_eq|].
    apply (atomic_get_spec _ _ 1); [simpl; apply lookup_insert_eq | lia].
  - intros Hr. unfold digest. fold r. apply Z.eqb_neq in Hr. rewrite Hr.
    split; [reflexivity | apply lookup_insert_eq].
Qed.

Lemma invalidate_hash_spec c w :
  is_Some (heap w !! cell (hash c)) ->
  invalidate_hash c w =
    Some (c, mkWorld (<[cell (hash c) := 0]> (heap w)) (next_loc w) (trace w)).
Proof.
  intros Ha. unfold invalidate_hash. unfold bind at 1.
  rewrite (set_spec _ _ _ Ha). reflexivity.
Qed.

Lemma get_mut_spec c w :
  is_Some (heap w !! cell (hash c)) ->
  get_mut c w =
    Some ((c, value c), mkWorld (<[cell (hash c) := 0]> (heap w)) (next_loc w) (trace w)).
Proof.
  intros Ha. unfold get_mut. unfold bind at 1.
  rewrite (invalidate_hash_spec _ _ Ha). reflexivity.
Qed.

(** C3 *)
(** Claim C3: [get_mut], and [deref_mut], [as_mut] and [borrow_mut] which are
    [get_mut], clear the slot (its word becomes 0 and [get_raw] reads [None])
    before handing out the reference to the value. *)
Theorem get_mut_invalidates c w :
  is_Some (heap w !! cell (hash c)) ->
  exists w',
    get_mut c w = Some ((c, value c), w') /\
    deref_mut c w = get_mut c w /\ as_mut c w = get_mut c w /\
    borrow_mut c w = get_mut c w /\
    heap w' !! cell (hash c) = Some 0 /\
    Atomic.get_raw (hash c) w' = Some (None, w').
Proof.
  intros Ha. eexists. split; [apply get_mut_spec; exact Ha|].
  split; [reflexivity|]. split; [reflexivity|]. split; [reflexivity|].
  split; [simpl; apply lookup_insert_eq|].
  rewrite (get_raw_spec _ _ 0); [reflexivity | simpl; apply lookup_insert_eq].
Qed.

Lemma run_hops_this c hops w c' w' :
  run_hops c hops w = Some (c', w') -> c' = c.
Proof.
  revert w. induction hops as [|[st|] hops IH]; intros w Hrun; simpl in Hrun.
  - unfold ret in Hrun. congruence.
  - unfold bind in Hrun. destruct (hash_impl c st w) as [[? w1]|]; [|discriminate].
    exact (IH _ Hrun).
  - unfold invalidate_hash, bind, Atomic.set, store, ret in Hrun.
    destruct (heap w !! cell (hash c)); [|discriminate].
    exact (IH _ Hrun).
Qed.

(** C10 *)
(** Claim C10: [invalidate_hash] and [get_mut] change only the word of the
    instance's own slot (set to 0): the instance (its value and its
    build-hasher) is returned as it was and every other heap word is left
    alone; [get_mut] followed by no write through the reference leaves the
    value identical; and after any sequence of hashing and [invalidate_hash]
    calls, [take_value] returns the value originally stored. *)
Theorem frame_invalidate_get_mut c w :
  is_Some (heap w !! cell (hash c)) ->
  (let w' := mkWorld (<[cell (hash c) := 0]> (heap w)) (next_loc w) (trace w) in
   invalidate_hash c w = Some (c, w') /\
   get_mut c w = Some ((c, value c), w') /\
   write_through c (value c) (fun r => r) = c /\
   forall l, l <> cell (hash c) -> heap w' !! l = heap w !! l) /\
  (forall hops c' w'', run_hops c hops w = Some (c', w'') ->
     take_value c' = take_value c /\ build_hasher c' = build_hasher c).
Proof.
  intros Ha. split.
  - simpl. split; [apply invalidate_hash_spec; exact Ha|].
    split; [apply get_mut_spec; exact Ha|].
    split; [destruct c; reflexivity|].
    intros l Hl. apply lookup_insert_ne. congruence.
  - intros hops c' w'' Hrun. apply run_hops_this in Hrun. subst c'. split; reflexivity.
Qed.

(** C6 *)
(** Claim C6: two instances compare equal exactly when their wrapped values
    compare equal under [T]'s [==]; neither the slot (its location or its
    word, which [eq_impl] cannot even see) nor the build-hasher plays a
    part. *)
Theorem eq_by_value_only `{!PartialEq T} (a b : @CachedHash T BH) :
  eq_impl a b = PartialEq_eq (value a) (value b) /\
  (forall a' b' : @CachedHash T BH, value a' = value a -> value b' = value b ->
     eq_impl a' b' = eq_impl a b).
Proof.
  split; [reflexivity|]. intros a' b' Ha Hb. unfold eq_impl. rewrite Ha, Hb. reflexivity.
Qed.

(** C9 *)
(** Claim C9: on a live instance (its slot allocated), construction, hashing,
    the slot's [get] (whose [unwrap] is guarded by the non-zero test),
    [get_mut], [invalidate_hash], [get] and [take_value] all succeed: no
    [unwrap] reaches [None], whatever word the slot holds. *)
Theorem operations_total `{!Default BH} c w (st : H2) (v : T) (bh : BH) :
  is_Some (heap w !! cell (hash c)) ->
  is_Some (new v w) /\ is_Some (new_with_hasher v w) /\
  is_Some (new_with_build_hasher v bh w) /\
  is_Some (hash_impl c st w) /\ is_Some (Atomic.get (hash c) w) /\
  is_Some (get_mut c w) /\ is_Some (invalidate_hash c w) /\
  get c = value c /\ take_value c = value c /\
  is_Some (NonZeroU64_new 1).
Proof.
  intros [z Hz].
  split; [eexists; reflexivity|]. split; [eexists; reflexivity|].
  split; [eexists; reflexivity|]. split.
  - destruct (Z.eq_dec z 0) as [->|Hnz].
    + rewrite (hash_impl_miss _ _ _ Hz). eexists; reflexivity.
    + rewrite (hash_impl_hit _ _ _ _ Hz Hnz). eexists; reflexivity.
  - split.
    + destruct (atomic_get_spec _ _ _ Hz) as [H0 H1].
      destruct (Z.eq_dec z 0) as [E|E].
      * rewrite (H0 E). eexists; reflexivity.
      * destruct (H1 E) as [n [Hn _]]. rewrite Hn. eexists; reflexivity.
    + split; [rewrite get_mut_spec by (eexists; exact Hz); eexists; reflexivity|].
      split; [rewrite invalidate_hash_spec by (eexists; exact Hz); eexists; reflexivity|].
      split; [reflexivity|]. split; [reflexivity|]. eexists; reflexivity.
Qed.

(** C5 *)
(** Claim C5: hashing [new v] twice in a row feeds the same digest both times
    and runs the provider once; with [invalidate_hash] or a [get_mut] that
    writes nothing between the two calls, the provider runs a second time
    (recomputation) and the same digest is fed again. *)
Theorem digest_stability `{!Default BH} (v : T) (st1 st2 : H2) w :
  let d := digest (Default_default : BH) v in
  (exists w',
     (c <- new v ;; s1 <- hash_impl c st1 ;; s2 <- hash_impl c st2 ;; ret (s1, s2)) w
       = Some ((Hasher_write_u64 st1 d, Hasher_write_u64 st2 d), w') /\
     trace w' = trace w ++ [EvBuildHasher; EvValueHash]) /\
  (exists w',
     (c <- new v ;; s1 <- hash_impl c st1 ;; c <- invalidate_hash c ;;
      s2 <- hash_impl c st2 ;; ret (s1, s2)) w
       = Some ((Hasher_write_u64 st1 d, Hasher_write_u64 st2 d), w') /\
     trace w' = trace w ++ [EvBuildHasher; EvValueHash; EvBuildHasher; EvValueHash]) /\
  (exists w',
     (c <- new v ;; s1 <- hash_impl c st1 ;; p <- get_mut c ;;
      s2 <- hash_impl p.1 st2 ;; ret (s1, s2)) w
       = Some ((Hasher_write_u64 st1 d, Hasher_write_u64 st2 d), w') /\
     trace w' = trace w ++ [EvBuildHasher; EvValueHash; EvBuildHasher; EvValueHash]).
Proof.
  intros d. split; [|split].
  - eexists.
    erewrite bind_Some; [|reflexivity].
    erewrite bind_Some; [|apply hash_impl_miss; cbn; apply lookup_insert_eq].
    erewrite bind_Some; [|apply hash_impl_hit; [cbn; apply lookup_insert_eq | apply digest_neq0]].
    split; [reflexivity|]. cbn. rewrite <- app_assoc. reflexivity.
  - eexists.
    erewrite bind_Some; [|reflexivity].
    erewrite bind_Some; [|apply hash_impl_miss; cbn; apply lookup_insert_eq].
    erewrite bind_Some; [|apply invalidate_hash_spec; cbn; rewrite lookup_insert_eq; eexists; reflexivity].
    erewrite bind_Some; [|apply hash_impl_miss; cbn; apply lookup_insert_eq].
    split; [reflexivity|]. cbn. rewrite <- !app_assoc. reflexivity.
  - eexists.
    erewrite bind_Some; [|reflexivity].
    erewrite bind_Some; [|apply hash_impl_miss; cbn; apply lookup_insert_eq].
    erewrite bind_Some; [|apply get_mut_spec; cbn; rewrite lookup_insert_eq; eexists; reflexivity].
    erewrite bind_Some; [|apply hash_impl_miss; cbn; apply lookup_insert_eq].
    split; [reflexivity|]. cbn. rewrite <- !app_assoc. reflexivity.
Qed.

Lemma clone_impl_spec `{!Clone T, !Clone BH} c w z :
  heap w !! cell (hash c) = Some z ->
  clone_impl c w =
    Some (mkCachedHash (Clone_clone (value c)) (mkAtomic (next_loc w))
                       (Clone_clone (build_hasher c)),
          mkWorld (<[next_loc w := z]> (heap w)) (Pos.succ (next_loc w)) (trace w)).
Proof.
  intros H. unfold clone_impl, Atomic.clone.
  unfold bind, load, alloc, ret. rewrite H. reflexivity.
Qed.

Lemma heap_bounded_spec w :
  heap_bounded w <-> forall l, is_Some (heap w !! l) -> (l < next_loc w)%positive.
Proof.
  unfold heap_bounded, map_Forall. split.
  - intros H l [x Hx]. exact (H l x Hx).
  - intros H l x Hx. apply H. eexists; exact Hx.
Qed.

Lemma fresh_loc_ne w l : heap_bounded w -> is_Some (heap w !! l) -> next_loc w <> l.
Proof. intros Hb Hl E. subst l. apply (proj1 (heap_bounded_spec w) Hb) in Hl. lia. Qed.

(** C8 *)
(** Claim C8: [clone_impl] copies the value and clones the build-hasher,
    allocates a new slot holding a snapshot of the source's word, and never
    runs the provider (the trace is unchanged); so if the source's digest was
    present, the clone's first hashing call is the fast path feeding that
    digest; and a write to either slot after the clone leaves the other
    slot's word unchanged.  (The world is assumed well formed: every
    allocated location lies below [next_loc].) *)
Theorem clone_preserves_cache `{!Clone T, !Clone BH} c w :
  heap_bounded w -> is_Some (heap w !! cell (hash c)) ->
  exists c' w',
    clone_impl c w = Some (c', w') /\
    value c' = Clone_clone (value c) /\
    build_hasher c' = Clone_clone (build_hasher c) /\
    cell (hash c') <> cell (hash c) /\
    heap w' !! cell (hash c') = heap w !! cell (hash c) /\
    heap w' !! cell (hash c) = heap w !! cell (hash c) /\
    trace w' = trace w /\
    (forall d (st : H2), Atomic.get_raw (hash c) w = Some (Some d, w) ->
       hash_impl c' st w' = Some (Hasher_write_u64 st d, w')) /\
    (forall o w'', Atomic.set (hash c) o w' = Some (tt, w'') ->
       heap w'' !! cell (hash c') = heap w' !! cell (hash c')) /\
    (forall o w'', Atomic.set (hash c') o w' = Some (tt, w'') ->
       heap w'' !! cell (hash c) = heap w' !! cell (hash c)).
Proof.
  intros Hb [z Hz].
  pose proof (fresh_loc_ne w (cell (hash c)) Hb (ex_intro _ z Hz)) as Hne.
  do 2 eexists. split; [apply clone_impl_spec; exact Hz|]. cbn.
  split; [reflexivity|]. split; [reflexivity|]. split; [exact Hne|].
  split; [rewrite lookup_insert_eq; congruence|].
  split; [apply lookup_insert_ne; congruence|].
  split; [reflexivity|]. split; [|split].
  - intros d st Hd. rewrite (get_raw_spec _ _ _ Hz) in Hd.
    destruct (Z.eqb z 0) eqn:E; [discriminate|]. injection Hd as <-.
    apply hash_impl_hit; [cbn; apply lookup_insert_eq | apply Z.eqb_neq; exact E].
  - intros o w'' Hset. rewrite set_spec in Hset.
    + injection Hset as <-. cbn. apply lookup_insert_ne. congruence.
    + cbn. rewrite lookup_insert_ne by congruence. eexists; exact Hz.
  - intros o w'' Hset. rewrite set_spec in Hset.
    + injection Hset as <-. cbn. apply lookup_insert_ne. congruence.
    + cbn. rewrite lookup_insert_eq. eexists; reflexivity.
Qed.

End Hashing.

Section Invariant.

Context {T BH HS : Type}.
Context `{!Hasher HS, !BuildHasher BH HS, !Hash T HS}.

Implicit Types (c : @CachedHash T BH) (cs : list (@CachedHash T BH)) (w : world).

Lemma inv_update cs w i c c' z' w' :
  cache_inv cs w -> cs !! i = Some c -> cell (hash c') = cell (hash c) ->
  (z' <> 0 -> z' = digest (build_hasher c') (value c')) ->
  heap w' = <[cell (hash c) := z']> (heap w) -> next_loc w' = next_loc w ->
  cache_inv (<[i := c']> cs) w'.
Proof.
  intros [Hb [Hd Hs]] Hi Hcell Hz Hheap Hnext.
  pose proof (proj1 (heap_bounded_spec w) Hb) as Hb'.
  assert (Hback : forall j cj, <[i := c']> cs !! j = Some cj ->
            exists c0, cs !! j = Some c0 /\ cell (hash c0) = cell (hash cj) /\
                       (j <> i -> c0 = cj)).
  { intros j cj Hj. apply list_lookup_insert_Some in Hj.
    destruct Hj as [[<- [<- _]] | [Hne Hj]].
    - exists c. split; [exact Hi|]. split; [congruence | tauto].
    - exists cj. auto. }
  split; [|split].
  - apply heap_bounded_spec. intros l [x Hl]. rewrite Hnext. rewrite Hheap in Hl.
    destruct (decide (l = cell (hash c))) as [->|Hne].
    + apply Hb'. destruct (Hs _ _ Hi) as [z [Hz0 _]]. eexists; exact Hz0.
    + rewrite lookup_insert_ne in Hl by congruence. apply Hb'. eexists; exact Hl.
  - intros j k cj ck Hj Hk Hc.
    destruct (Hback _ _ Hj) as [cj0 [Hj0 [Ecj _]]].
    destruct (Hback _ _ Hk) as [ck0 [Hk0 [Eck _]]].
    apply (Hd _ _ _ _ Hj0 Hk0). congruence.
  - intros j cj Hj. unfold slot_consistent. rewrite Hheap.
    apply list_lookup_insert_Some in Hj. destruct Hj as [[<- [<- _]] | [Hne Hj]].
    + exists z'. split; [rewrite Hcell; apply lookup_insert_eq | exact Hz].
    + assert (Hcne : cell (hash cj) <> cell (hash c)).
      { intros E. apply Hne. symmetry. exact (Hd _ _ _ _ Hj Hi E). }
      destruct (Hs _ _ Hj) as [z [Hz0 Hz1]]. exists z.
      split; [rewrite lookup_insert_ne by congruence; exact Hz0 | exact Hz1].
Qed.

Lemma inv_alloc cs w c' z' w' :
  cache_inv cs w -> cell (hash c') = next_loc w ->
  (z' <> 0 -> z' = digest (build_hasher c') (value c')) ->
  heap w' = <[next_loc w := z']> (heap w) -> next_loc w' = Pos.succ (next_loc w) ->
  cache_inv (cs ++ [c']) w'.
Proof.
  intros [Hb [Hd Hs]] Hcell Hz Hheap Hnext.
  assert (Hold : forall j cj, cs !! j = Some cj -> cell (hash cj) <> next_loc w).
  { intros j cj Hj E. destruct (Hs _ _ Hj) as [z [Hz0 _]].
    apply (fresh_loc_ne w (cell (hash cj)) Hb); [eexists; exact Hz0 | congruence]. }
  split; [|split].
  - apply heap_bounded_spec. intros l [x Hl]. rewrite Hnext. rewrite Hheap in Hl.
    destruct (decide (l = next_loc w)) as [->|Hne]; [lia|].
    rewrite lookup_insert_ne in Hl by congruence.
    assert (l < next_loc w)%positive by (apply (proj1 (heap_bounded_spec w) Hb); eexists; exact Hl).
    lia.
  - intros j k cj ck Hj Hk Hc.
    apply lookup_snoc_Some in Hj, Hk.
    destruct Hj as [[Hj Hj'] | [Hj <-]], Hk as [[Hk Hk'] | [Hk <-]].
    + exact (Hd _ _ _ _ Hj' Hk' Hc).
    + exfalso. apply (Hold _ _ Hj'). congruence.
    + exfalso. apply (Hold _ _ Hk'). congruence.
    + lia.
  - intros j cj Hj. unfold slot_consistent. rewrite Hheap. apply lookup_snoc_Some in Hj.
    destruct Hj as [[_ Hj] | [_ <-]].
    + destruct (Hs _ _ Hj) as [z [Hz0 Hz1]]. exists z. split; [|exact Hz1].
      rewrite lookup_insert_ne by (apply not_eq_sym, (Hold _ _ Hj)). exact Hz0.
    + exists z'. split; [rewrite Hcell; apply lookup_insert_eq | exact Hz].
Qed.

Lemma inv_delete cs w i : cache_inv cs w -> cache_inv (delete i cs) w.
Proof.
  intros [Hb [Hd Hs]]. split; [exact Hb|]. split.
  - intros j k cj ck Hj Hk Hc. rewrite list_lookup_delete in Hj, Hk.
    pose proof (Hd _ _ _ _ Hj Hk Hc) as E.
    destruct (decide (j < i)%nat), (decide (k < i)%nat); lia.
  - intros j cj Hj. rewrite list_lookup_delete in Hj. exact (Hs _ _ Hj).
Qed.

Lemma inv_world_same_heap cs w w' :
  cache_inv cs w -> heap w' = heap w -> next_loc w' = next_loc w -> cache_inv cs w'.
Proof.
  intros [Hb [Hd Hs]] Hh Hn. split; [|split; [exact Hd|]].
  - apply heap_bounded_spec. intros l Hl. rewrite Hn.
    apply (proj1 (heap_bounded_spec w) Hb). rewrite <- Hh. exact Hl.
  - intros j cj Hj. destruct (Hs _ _ Hj) as [z Hz]. exists z. rewrite Hh. exact Hz.
Qed.

Lemma inv_empty : cache_inv (T:=T) (BH:=BH) [] empty_world.
Proof.
  split; [|split].
  - apply heap_bounded_spec. intros l [x Hl]. cbn in Hl. rewrite lookup_empty in Hl. discriminate.
  - intros j k cj ck Hj. rewrite lookup_nil in Hj. discriminate.
  - intros j cj Hj. rewrite lookup_nil in Hj. discriminate.
Qed.

End Invariant.

Lemma bind_inv {A B} (m : M A) (k : A -> M B) w r :
  bind m k w = Some r -> exists a w1, m w = Some (a, w1) /\ k a w1 = Some r.
Proof. unfold bind. destruct (m w) as [[a w1]|]; [eauto | discriminate]. Qed.

Lemma unwrap_inv {A} (o : option A) w a w1 :
  unwrap o w = Some (a, w1) -> o = Some a /\ w1 = w.
Proof. destruct o; unfold unwrap, ret, panic; intros H; [injection H as <- <-; auto | discriminate]. Qed.

Lemma ret_inv {A} (x : A) w a w1 : ret x w = Some (a, w1) -> a = x /\ w1 = w.
Proof. unfold ret. intros H. injection H as <- <-. auto. Qed.

Ltac inv_bind H :=
  let a := fresh "a" in let w1 := fresh "w" in let H1 := fresh "Hm" in
  apply bind_inv in H; destruct H as [a [w1 [H1 H]]].

Section Programs.

Context {T BH HS H2 : Type}.
Context `{!Hasher HS, !BuildHasher BH HS, !Hash T HS, !Hasher H2}.
Context `{!Clone T, !Clone BH, !PartialEq T}.

(** [Clone] of the value and of the build-hasher keeps the digest: the clone
    of a value is equal to it, and [Hash] agrees with equality. *)
Hypothesis clone_digest :
  forall (bh : BH) (v : T), digest (Clone_clone bh) (Clone_clone v) = digest bh v.

Lemma live_slot cs w i c :
  cache_inv cs w -> cs !! i = Some c -> is_Some (heap w !! cell (hash c)).
Proof. intros [_ [_ Hs]] Hi. destruct (Hs _ _ Hi) as [z [Hz _]]. eexists; exact Hz. Qed.

Lemma step_inv (o : @op T BH H2) cs w cs' w' :
  cache_inv cs w -> step o cs w = Some (cs', w') -> cache_inv cs' w'.
Proof.
  intros Hinv Hstep. destruct o as [v bh|i|i f|i|i st|i|i|i j];
    unfold step in Hstep; cbv beta iota in Hstep.
  - inv_bind Hstep. apply ret_inv in Hstep. destruct Hstep as [-> ->].
    unfold new_with_build_hasher, Atomic.new_none, bind, alloc, ret in Hm.
    injection Hm as <- <-.
    apply (inv_alloc _ w _ 0); simpl; auto. lia.
  - inv_bind Hstep. apply unwrap_inv in Hm. destruct Hm as [Hi ->].
    apply ret_inv in Hstep. destruct Hstep as [-> ->]. exact Hinv.
  - inv_bind Hstep. apply unwrap_inv in Hm. destruct Hm as [Hi ->].
    inv_bind Hstep. rewrite (get_mut_spec _ _ (live_slot _ _ _ _ Hinv Hi)) in Hm.
    injection Hm as <- <-. apply ret_inv in Hstep. destruct Hstep as [-> ->].
    apply (inv_update _ w _ a _ 0); simpl; auto. lia.
  - inv_bind Hstep. apply unwrap_inv in Hm. destruct Hm as [Hi ->].
    inv_bind Hstep. rewrite (invalidate_hash_spec _ _ (live_slot _ _ _ _ Hinv Hi)) in Hm.
    injection Hm as <- <-. apply ret_inv in Hstep. destruct Hstep as [-> ->].
    apply (inv_update _ w _ a _ 0); simpl; auto. lia.
  - inv_bind Hstep. apply unwrap_inv in Hm. destruct Hm as [Hi ->].
    inv_bind Hstep. apply ret_inv in Hstep. destruct Hstep as [-> ->].
    destruct Hinv as [Hb [Hd Hs]] eqn:Hinv'.
    destruct (Hs _ _ Hi) as [z [Hz Hzd]].
    destruct (Z.eq_dec z 0) as [->|Hnz].
    + rewrite (hash_impl_miss _ _ _ Hz) in Hm. injection Hm as <- <-.
      rewrite <- (list_insert_id cs i a Hi).
      apply (inv_update _ w _ a _ (digest (build_hasher a) (value a))); simpl; auto.
    + rewrite (hash_impl_hit _ _ _ _ Hz Hnz) in Hm. injection Hm as <- <-. exact Hinv.
  - inv_bind Hstep. apply unwrap_inv in Hm. destruct Hm as [Hi ->].
    inv_bind Hstep. apply ret_inv in Hstep. destruct Hstep as [-> ->].
    destruct Hinv as [Hb [Hd Hs]] eqn:Hinv'.
    destruct (Hs _ _ Hi) as [z [Hz Hzd]].
    rewrite (clone_impl_spec _ _ _ Hz) in Hm. injection Hm as <- <-.
    apply (inv_alloc _ w _ z); simpl; auto.
    intros Hnz. rewrite clone_digest. apply Hzd. exact Hnz.
  - inv_bind Hstep. apply unwrap_inv in Hm. destruct Hm as [Hi ->].
    apply ret_inv in Hstep. destruct Hstep as [-> ->]. apply inv_delete. exact Hinv.
  - inv_bind Hstep. apply unwrap_inv in Hm. destruct Hm as [Hi ->].
    inv_bind Hstep. apply unwrap_inv in Hm. destruct Hm as [Hj ->].
    apply ret_inv in Hstep. destruct Hstep as [-> ->]. exact Hinv.
Qed.

Lemma run_inv (ops : list (@op T BH H2)) cs w cs' w' :
  cache_inv cs w -> run ops cs w = Some (cs', w') -> cache_inv cs' w'.
Proof.
  revert cs w. induction ops as [|o ops IH]; intros cs w Hinv Hrun; simpl in Hrun.
  - apply ret_inv in Hrun. destruct Hrun as [-> ->]. exact Hinv.
  - inv_bind Hrun. exact (IH _ _ (step_inv _ _ _ _ _ Hinv Hm) Hrun).
Qed.

(** C1 *)
(** Claim C1: after any client program (any sequence of construction, [get],
    [get_mut] with any write through the returned reference,
    [invalidate_hash], hashing, cloning, [take_value] and comparison) run from
    the initial world, every live instance whose slot holds a value [d] has
    [d] equal to the digest its build-hasher computes over its current value,
    0 remapped to 1.  The hasher is deterministic and [T] has no interior
    mutability by construction of the model; [clone_digest] is the
    [Clone]/[Hash] convention for the clone operations. *)
Theorem cache_consistent (ops : list (@op T BH H2)) cs w :
  run ops [] empty_world = Some (cs, w) ->
  forall i c d, cs !! i = Some c -> Atomic.get_raw (hash c) w = Some (Some d, w) ->
  d = digest (build_hasher c) (value c).
Proof.
  intros Hrun i c d Hi Hget.
  destruct (run_inv _ _ _ _ _ inv_empty Hrun) as [_ [_ Hs]].
  destruct (Hs _ _ Hi) as [z [Hz Hzd]].
  rewrite (get_raw_spec _ _ _ Hz) in Hget.
  destruct (Z.eqb z 0) eqn:E; [discriminate|]. injection Hget as <-.
  apply Hzd. apply Z.eqb_neq. exact E.
Qed.

End Programs.

End CachedHashProofs.

(** ** The theorems at concrete inputs *)

Module AtomicProofs.
Import CachedHashProofs.

Lemma nz_into_inj (n1 n2 : NonZeroU64) : nz_into n1 = nz_into n2 -> n1 = n2.
Proof.
  destruct n1 as [x1 H1], n2 as [x2 H2]; simpl. intros ->.
  f_equal. apply Eqdep_dec.UIP_dec. exact Bool.bool_dec.
Qed.

Lemma string_length_append (s t : string) :
  String.length (String.append s t) = (String.length s + String.length t)%nat.
Proof. induction s as [|c s IH]; simpl; [reflexivity | rewrite IH; reflexivity]. Qed.

Lemma string_append_nil_l (s : string) : String.append EmptyString s = s.
Proof. reflexivity. Qed.

Lemma string_append_inj_r (s1 s2 t : string) :
  String.append s1 t = String.append s2 t -> s1 = s2.
Proof.
  revert s2. induction s1 as [|c1 s1 IH]; intros [|c2 s2] H; simpl in H.
  - reflexivity.
  - apply (f_equal String.length) in H. simpl in H.
    rewrite !string_length_append in H. simpl in H. lia.
  - apply (f_equal String.length) in H. simpl in H.
    rewrite !string_length_append in H. simpl in H. lia.
  - injection H as -> H. f_equal. exact (IH _ H).
Qed.

(** X1 *)
(** [new_some v] makes a slot whose [get] returns [Some v] and whose
    [get_raw] returns [Some v] as a [u64]. *)
Theorem new_some_roundtrip (v : NonZeroU64) w :
  exists a w',
    Atomic.new_some v w = Some (a, w') /\
    Atomic.get a w' = Some (Some v, w') /\
    Atomic.get_raw a w' = Some (Some (nz_into v), w').
Proof.
  eexists _, _. split; [reflexivity|].
  assert (Hl : heap (mkWorld (<[next_loc w := nz_into v]> (heap w)) (Pos.succ (next_loc w)) (trace w))
                 !! cell (mkAtomic (next_loc w)) = Some (nz_into v))
    by (simpl; apply lookup_insert_eq).
  split.
  - destruct (proj2 (atomic_get_spec _ _ _ Hl) (nz_into_neq0 v)) as [n [Hn Hnv]].
    rewrite Hn. rewrite (nz_into_inj n v Hnv). reflexivity.
  - rewrite (get_raw_spec _ _ _ Hl).
    pose proof (nz_into_neq0 v) as Hv. apply Z.eqb_neq in Hv. rewrite Hv. reflexivity.
Qed.

(** X2 *)
(** On an allocated slot, [get] and [get_raw] read the same content and
    change nothing: [get_raw] is [get] with the [NonZeroU64] turned into a
    [u64]. *)
Theorem get_get_raw_agree a w :
  is_Some (heap w !! cell a) ->
  exists o, Atomic.get a w = Some (o, w) /\
            Atomic.get_raw a w = Some (option_map nz_into o, w).
Proof.
  intros [z Hz]. destruct (atomic_get_spec _ _ _ Hz) as [H0 H1].
  rewrite (get_raw_spec _ _ _ Hz).
  destruct (Z.eq_dec z 0) as [E|E].
  - exists None. split; [exact (H0 E)|]. subst z. reflexivity.
  - destruct (H1 E) as [n [Hn Hnz]]. exists (Some n). split; [exact Hn|].
    apply Z.eqb_neq in E. rewrite E. simpl. rewrite Hnz. reflexivity.
Qed.

(** X3 *)
(** Two [set]s in a row on an allocated slot leave the world the second one
    alone would leave: the last write wins. *)
Theorem set_set_last_wins a x y w :
  is_Some (heap w !! cell a) ->
  (_ <- Atomic.set a x ;; Atomic.set a y) w = Atomic.set a y w.
Proof.
  intros Ha. erewrite bind_Some; [|apply set_spec; exact Ha].
  rewrite (set_spec a y w Ha). rewrite set_spec by (simpl; rewrite lookup_insert_eq; eexists; reflexivity).
  simpl. rewrite insert_insert_eq. reflexivity.
Qed.

Lemma fmt_spec a w z :
  heap w !! cell a = Some z ->
  Atomic.fmt a w =
    Some ((if Z.eqb z 0 then "None"%string
           else String.append "Some("%string (String.append (pretty z) ")"%string)), w).
Proof.
  intros Hz. unfold Atomic.fmt. destruct (atomic_get_spec _ _ _ Hz) as [H0 H1].
  destruct (Z.eq_dec z 0) as [E|E].
  - erewrite bind_Some; [|exact (H0 E)]. subst z. reflexivity.
  - destruct (H1 E) as [n [Hn Hnz]]. erewrite bind_Some; [|exact Hn].
    apply Z.eqb_neq in E. rewrite E, Hnz. reflexivity.
Qed.

(** X4 *)
(** The [Debug] text of an allocated slot is ["None"] when its word is 0 and
    ["Some(<word in decimal>)"] otherwise, and two slots print the same text
    exactly when their words are equal. *)
Theorem fmt_shows_word a b w za zb :
  heap w !! cell a = Some za -> heap w !! cell b = Some zb ->
  Atomic.fmt a w =
    Some ((if Z.eqb za 0 then "None"%string
           else String.append "Some("%string (String.append (pretty za) ")"%string)), w) /\
  (fst <$> Atomic.fmt a w = fst <$> Atomic.fmt b w <-> za = zb).
Proof.
  intros Ha Hb. split; [exact (fmt_spec _ _ _ Ha)|].
  rewrite (fmt_spec _ _ _ Ha), (fmt_spec _ _ _ Hb). simpl. split.
  - intros H. injection H as H.
    destruct (Z.eqb za 0) eqn:Ea, (Z.eqb zb 0) eqn:Eb.
    + apply Z.eqb_eq in Ea, Eb. congruence.
    + discriminate H.
    + discriminate H.
    + injection H as H. rewrite !string_append_nil_l in H. apply string_append_inj_r in H. exact (inj pretty _ _ H).
  - intros ->. reflexivity.
Qed.

(** X12 *)
(** [Default::default] is [new_none], and the slot it makes reads empty:
    [get] and [get_raw] return [None] and the [Debug] text is ["None"]. *)
Theorem new_none_empty w :
  Atomic.default w = Atomic.new_none w /\
  exists a w',
    Atomic.new_none w = Some (a, w') /\
    Atomic.get a w' = Some (None, w') /\
    Atomic.get_raw a w' = Some (None, w') /\
    Atomic.fmt a w' = Some ("None"%string, w').
Proof.
  split; [reflexivity|]. eexists _, _. split; [reflexivity|].
  assert (Hl : heap (mkWorld (<[next_loc w := 0]> (heap w)) (Pos.succ (next_loc w)) (trace w))
                 !! cell (mkAtomic (next_loc w)) = Some 0)
    by (simpl; apply lookup_insert_eq).
  split; [exact (proj1 (atomic_get_spec _ _ _ Hl) eq_refl)|].
  split; [rewrite (get_raw_spec _ _ _ Hl); reflexivity|].
  rewrite (fmt_spec _ _ _ Hl). reflexivity.
Qed.

End AtomicProofs.

Module CachedHashExtra.
Import CachedHash CachedHashProofs.

Section Extra.

Context {T BH HS H2 : Type}.
Context `{!Hasher HS, !BuildHasher BH HS, !Hash T HS, !Hasher H2}.

Implicit Types (c : @CachedHash T BH) (w : world) (st : H2).

Lemma digest_eq_iff (bh : BH) (v v' : T) :
  let raw x := Hasher_finish (Hash_hash x (BuildHasher_build_hasher bh)) in
  digest bh v = digest bh v' <->
  raw v = raw v' \/ ((raw v = 0 \/ raw v = 1) /\ (raw v' = 0 \/ raw v' = 1)).
Proof.
  intros raw. unfold digest. fold (raw v) (raw v').
  destruct (Z.eqb (raw v) 0) eqn:E1, (Z.eqb (raw v') 0) eqn:E2;
    rewrite ?Z.eqb_eq, ?Z.eqb_neq in E1, E2; lia.
Qed.

Lemma get_bind_spec {B} a w z (k : option NonZeroU64 -> M B) :
  heap w !! cell a = Some z ->
  (z = 0 -> (o <- Atomic.get a ;; k o) w = k None w) /\
  (z <> 0 -> exists n, nz_into n = z /\ (o <- Atomic.get a ;; k o) w = k (Some n) w).
Proof.
  intros Hz. destruct (atomic_get_spec _ _ _ Hz) as [H0 H1]. split.
  - intros E. apply bind_Some. exact (H0 E).
  - intros E. destruct (H1 E) as [n [Hn Hnz]]. exists n. split; [exact Hnz|].
    apply bind_Some. exact Hn.
Qed.

(** X5 *)
(** [new_with_build_hasher] (and so [new], [new_with_hasher] and [from], which
    call it) keeps the value and the build-hasher, takes a location no live
    slot uses, stores 0 there (empty cache), leaves every other word and the
    provider trace alone, and keeps the world well formed. *)
Theorem new_fresh_empty_slot `{!Default BH} (v : T) (bh : BH) w :
  heap_bounded w ->
  new v w = new_with_build_hasher v Default_default w /\
  from v w = new_with_build_hasher v Default_default w /\
  exists c w',
    new_with_build_hasher v bh w = Some (c, w') /\
    value c = v /\ build_hasher c = bh /\
    heap w !! cell (hash c) = None /\ heap w' !! cell (hash c) = Some 0 /\
    (forall l, l <> cell (hash c) -> heap w' !! l = heap w !! l) /\
    heap_bounded w' /\ trace w' = trace w.
Proof.
  intros Hb. split; [reflexivity|]. split; [reflexivity|].
  pose proof (proj1 (heap_bounded_spec w) Hb) as Hb'.
  eexists _, _. split; [reflexivity|]. cbn.
  split; [reflexivity|]. split; [reflexivity|].
  split.
  { destruct (heap w !! next_loc w) eqn:E; [|reflexivity].
    exfalso. assert (next_loc w < next_loc w)%positive by (apply Hb'; eexists; exact E). lia. }
  split; [apply lookup_insert_eq|].
  split; [intros l Hl; apply lookup_insert_ne; congruence|].
  split; [|reflexivity].
  apply heap_bounded_spec. cbn. intros l [x Hl].
  destruct (decide (l = next_loc w)) as [->|Hne]; [lia|].
  rewrite lookup_insert_ne in Hl by congruence.
  assert (l < next_loc w)%positive by (apply Hb'; eexists; exact Hl). lia.
Qed.

(** X6 *)
(** The life of the cache as the code's test [invalide_invalidates] walks
    it: a new instance's slot reads empty, after hashing it holds the
    digest, after [invalidate_hash] it is empty again, and after the next
    hashing it holds the same digest. *)
Theorem invalidate_cycle `{!Default BH} (v : T) (st1 st2 : H2) w :
  let d := digest (Default_default : BH) v in
  exists n2 n4 w',
    (c <- new v ;; o1 <- Atomic.get (hash c) ;; _ <- hash_impl c st1 ;;
     o2 <- Atomic.get (hash c) ;; c <- invalidate_hash c ;; o3 <- Atomic.get (hash c) ;;
     _ <- hash_impl c st2 ;; o4 <- Atomic.get (hash c) ;; ret (o1, o2, o3, o4)) w
      = Some ((None, Some n2, None, Some n4), w') /\
    nz_into n2 = d /\ nz_into n4 = d.
Proof.
  intros d. erewrite bind_Some; [|reflexivity]. cbv beta.
  match goal with |- context [bind (Atomic.get ?a) ?k ?w0] =>
    rewrite (proj1 (get_bind_spec a w0 0 k ltac:(cbn; apply lookup_insert_eq)) eq_refl) end.
  erewrite bind_Some; [|apply hash_impl_miss; cbn; apply lookup_insert_eq]. cbv beta.
  match goal with |- context [bind (Atomic.get ?a) ?k ?w0] =>
    destruct (proj2 (get_bind_spec a w0 d k ltac:(cbn; apply lookup_insert_eq)) (digest_neq0 _ _))
      as [n2 [Hn2 ->]] end.
  erewrite bind_Some;
    [|apply invalidate_hash_spec; cbn; rewrite lookup_insert_eq; eexists; reflexivity].
  cbv beta.
  match goal with |- context [bind (Atomic.get ?a) ?k ?w0] =>
    rewrite (proj1 (get_bind_spec a w0 0 k ltac:(cbn; apply lookup_insert_eq)) eq_refl) end.
  erewrite bind_Some; [|apply hash_impl_miss; cbn; apply lookup_insert_eq]. cbv beta.
  match goal with |- context [bind (Atomic.get ?a) ?k ?w0] =>
    destruct (proj2 (get_bind_spec a w0 d k ltac:(cbn; apply lookup_insert_eq)) (digest_neq0 _ _))
      as [n4 [Hn4 ->]] end.
  exists n2, n4. eexists. split; [reflexivity|]. split; assumption.
Qed.

(** X7 *)
(** Writing through the reference [get_mut] returns and then hashing feeds
    the digest of the new value: the provider runs once more (the trace gains
    one build-hasher and one value-hash event), whatever the slot held. *)
Theorem hash_after_get_mut_write c (f : T -> T) st w :
  is_Some (heap w !! cell (hash c)) ->
  exists w',
    (p <- get_mut c ;; hash_impl (write_through p.1 p.2 f) st) w
      = Some (Hasher_write_u64 st (digest (build_hasher c) (f (value c))), w') /\
    heap w' !! cell (hash c) = Some (digest (build_hasher c) (f (value c))) /\
    trace w' = trace w ++ [EvBuildHasher; EvValueHash].
Proof.
  intros Ha. erewrite bind_Some; [|apply get_mut_spec; exact Ha]. cbn [fst snd].
  rewrite hash_impl_miss by (cbn; apply lookup_insert_eq).
  eexists. split; [reflexivity|]. cbn. split; [apply lookup_insert_eq|].
  rewrite <- app_assoc. reflexivity.
Qed.

(** X8 *)
(** The test [hash_different_after_modification]: hashing a new instance,
    changing its value through [get_mut] and hashing again feeds the digests
    of the old and of the new value; they coincide exactly when the
    provider's raw results coincide or both lie in {0, 1}. *)
Theorem mutation_changes_digest `{!Default BH} (v : T) (f : T -> T) st w :
  let raw x := Hasher_finish (Hash_hash x (BuildHasher_build_hasher (Default_default : BH))) in
  exists d1 d2 w',
    (c <- new v ;; s1 <- hash_impl c st ;; p <- get_mut c ;;
     s2 <- hash_impl (write_through p.1 p.2 f) st ;; ret (s1, s2)) w
      = Some ((Hasher_write_u64 st d1, Hasher_write_u64 st d2), w') /\
    (d1 = d2 <-> raw v = raw (f v) \/
                 ((raw v = 0 \/ raw v = 1) /\ (raw (f v) = 0 \/ raw (f v) = 1))).
Proof.
  intros raw. erewrite bind_Some; [|reflexivity]. cbv beta.
  erewrite bind_Some; [|apply hash_impl_miss; cbn; apply lookup_insert_eq].
  erewrite bind_Some;
    [|apply get_mut_spec; cbn; rewrite lookup_insert_eq; eexists; reflexivity].
  cbn [fst snd].
  erewrite bind_Some; [|apply hash_impl_miss; cbn; apply lookup_insert_eq].
  do 3 eexists. split; [reflexivity|]. cbn [value build_hasher write_through].
  apply digest_eq_iff.
Qed.

(** X9 *)
(** One call of [hash] feeds a nonzero word, leaves that word in the
    instance's own slot, changes no other location and allocates nothing;
    the provider trace either stays or gains one build-hasher and one
    value-hash event. *)
Theorem hash_impl_effect c st w :
  is_Some (heap w !! cell (hash c)) ->
  exists d w',
    hash_impl c st w = Some (Hasher_write_u64 st d, w') /\ d <> 0 /\
    heap w' !! cell (hash c) = Some d /\
    (forall l, l <> cell (hash c) -> heap w' !! l = heap w !! l) /\
    next_loc w' = next_loc w /\
    (trace w' = trace w \/ trace w' = trace w ++ [EvBuildHasher; EvValueHash]).
Proof.
  intros [z Hz]. destruct (Z.eq_dec z 0) as [->|Hnz].
  - rewrite hash_impl_miss by exact Hz. do 2 eexists.
    split; [reflexivity|]. split; [apply digest_neq0|]. cbn.
    split; [apply lookup_insert_eq|].
    split; [intros l Hl; apply lookup_insert_ne; congruence|].
    split; [reflexivity|]. right. rewrite <- app_assoc. reflexivity.
  - rewrite (hash_impl_hit _ _ _ _ Hz Hnz). do 2 eexists.
    split; [reflexivity|]. split; [exact Hnz|]. split; [exact Hz|].
    split; [reflexivity|]. split; [reflexivity|]. left. reflexivity.
Qed.

(** X10 *)
(** The test [hash_same_after_clone]: when the slot of [c] is empty or
    holds the digest of its value, and the clones of value and build-hasher
    give the same digest, hashing [c] and then its clone feeds the same
    word twice. *)
Theorem clone_hashes_same `{!Clone T, !Clone BH} c st w z :
  heap_bounded w -> heap w !! cell (hash c) = Some z ->
  (z <> 0 -> z = digest (build_hasher c) (value c)) ->
  digest (Clone_clone (build_hasher c)) (Clone_clone (value c)) =
    digest (build_hasher c) (value c) ->
  let d := digest (build_hasher c) (value c) in
  exists w',
    (c' <- clone_impl c ;; s1 <- hash_impl c st ;; s2 <- hash_impl c' st ;; ret (s1, s2)) w
      = Some ((Hasher_write_u64 st d, Hasher_write_u64 st d), w').
Proof.
  intros Hb Hz Hdz Hcl d.
  assert (Hfresh : next_loc w <> cell (hash c)).
  { apply (fresh_loc_ne w); [exact Hb|]. rewrite Hz. eexists; reflexivity. }
  erewrite bind_Some; [|apply clone_impl_spec; exact Hz]. cbv beta.
  destruct (Z.eq_dec z 0) as [->|Hnz].
  - erewrite bind_Some;
      [|apply hash_impl_miss; cbn; rewrite lookup_insert_ne by congruence; exact Hz].
    erewrite bind_Some;
      [|apply hash_impl_miss; cbn; rewrite lookup_insert_ne by congruence;
        apply lookup_insert_eq].
    cbn [value build_hasher]. rewrite Hcl. eexists. reflexivity.
  - assert (Hd : z = d) by (apply Hdz; exact Hnz).
    erewrite bind_Some;
      [|apply hash_impl_hit; [cbn; rewrite lookup_insert_ne by congruence; exact Hz | exact Hnz]].
    erewrite bind_Some;
      [|apply hash_impl_hit; [cbn; apply lookup_insert_eq | exact Hnz]].
    rewrite Hd. eexists. reflexivity.
Qed.

(** X11 *)
(** [invalidate_hash] is idempotent: invalidating twice has the effect of
    invalidating once. *)
Theorem invalidate_hash_idempotent c w :
  is_Some (heap w !! cell (hash c)) ->
  (c' <- invalidate_hash c ;; invalidate_hash c') w = invalidate_hash c w.
Proof.
  intros Ha. erewrite bind_Some; [|apply invalidate_hash_spec; exact Ha].
  rewrite invalidate_hash_spec by (cbn; rewrite lookup_insert_eq; eexists; reflexivity).
  rewrite invalidate_hash_spec by exact Ha. cbn. rewrite insert_insert_eq. reflexivity.
Qed.

End Extra.

End CachedHashExtra.

Module Witnesses.
Import CachedHash CachedHashProofs.

Lemma cache_consistent_witness :
  run (HS := Z) example_program [] empty_world
    = Some ([example_c 5 1; example_c 6 2], example_world) /\
  Atomic.get_raw (hash (example_c 6 2)) example_world = Some (Some 6, example_world) /\
  6 = digest (HS := Z) tt 6.
Proof.
  assert (Hrun : run (HS := Z) example_program [] empty_world
                   = Some ([example_c 5 1; example_c 6 2], example_world))
    by (vm_compute; reflexivity).
  assert (Hget : Atomic.get_raw (hash (example_c 6 2)) example_world
                   = Some (Some 6, example_world))
    by (vm_compute; reflexivity).
  split; [exact Hrun|]. split; [exact Hget|].
  exact (cache_consistent (fun _ _ => eq_refl) example_program _ _ Hrun 1 (example_c 6 2) 6
           eq_refl Hget).
Defined.

Lemma hash_compute_once_witness :
  heap (world_one_slot 0) !! cell (hash (example_c 5 1)) = Some 0 /\
  exists w', hash_all (HS := Z) (example_c 5 1) [[]; [1]] (world_one_slot 0)
               = Some ([[5]; [1; 5]], w') /\
             trace w' = [EvBuildHasher; EvValueHash].
Proof.
  assert (H : heap (world_one_slot 0) !! cell (hash (example_c 5 1)) = Some 0)
    by reflexivity.
  split; [exact H|].
  destruct (proj2 (hash_compute_once (H2 := list Z) (example_c 5 1) _ 0 H) [] [[1]])
    as [w' Hw']. exists w'. exact Hw'.
Defined.

Lemma get_mut_invalidates_witness :
  is_Some (heap (world_one_slot 42) !! cell (hash (example_c 5 1))) /\
  exists w', get_mut (example_c 5 1) (world_one_slot 42) = Some ((example_c 5 1, 5), w') /\
             Atomic.get_raw (hash (example_c 5 1)) w' = Some (None, w').
Proof.
  assert (H : is_Some (heap (world_one_slot 42) !! cell (hash (example_c 5 1))))
    by (eexists; reflexivity).
  split; [exact H|].
  destruct (get_mut_invalidates (example_c 5 1) _ H) as [w' [H1 [_ [_ [_ [_ H2]]]]]].
  exists w'. split; [exact H1 | exact H2].
Defined.

Lemma zero_digest_remap_witness :
  heap (world_one_slot 0) !! cell (hash (example_c 0 1)) = Some 0 /\
  exists w', hash_impl (HS := Z) (example_c 0 1) [] (world_one_slot 0) = Some ([1], w') /\
             heap w' !! 1%positive = Some 1 /\
             exists n, Atomic.get (mkAtomic 1) w' = Some (Some n, w') /\ nz_into n = 1.
Proof.
  assert (H : heap (world_one_slot 0) !! cell (hash (example_c 0 1)) = Some 0)
    by reflexivity.
  split; [exact H|].
  destruct (zero_digest_remap (H2 := list Z) (example_c 0 1) [] _ H) as [w' [H0 _]].
  exists w'. exact (H0 eq_refl).
Defined.

Lemma eq_by_value_only_witness :
  value (example_c 5 2) = value (example_c 5 1) /\
  value (example_c 7 3) = value (example_c 7 3) /\
  eq_impl (example_c 5 2) (example_c 7 3) = eq_impl (example_c 5 1) (example_c 7 3) /\
  eq_impl (example_c 5 1) (example_c 7 3) = false.
Proof.
  assert (Ha : value (example_c 5 2) = value (example_c 5 1)) by reflexivity.
  assert (Hb : value (example_c 7 3) = value (example_c 7 3)) by reflexivity.
  split; [exact Ha|]. split; [exact Hb|].
  split; [exact (proj2 (eq_by_value_only (example_c 5 1) (example_c 7 3)) _ _ Ha Hb)|].
  exact (proj1 (eq_by_value_only (example_c 5 1) (example_c 7 3))).
Defined.

Lemma atomic_read_write_roundtrip_witness :
  is_Some (heap (world_one_slot 9) !! cell (mkAtomic 1)) /\
  exists w', Atomic.set (mkAtomic 1) None (world_one_slot 9) = Some (tt, w') /\
             Atomic.get_raw (mkAtomic 1) w' = Some (None, w').
Proof.
  assert (H : is_Some (heap (world_one_slot 9) !! cell (mkAtomic 1))) by (eexists; reflexivity).
  split; [exact H|].
  exact (proj1 (proj2 atomic_read_write_roundtrip) (mkAtomic 1) _ H).
Defined.

Lemma clone_preserves_cache_witness :
  heap_bounded (world_one_slot 5) /\
  is_Some (heap (world_one_slot 5) !! cell (hash (example_c 5 1))) /\
  exists c' w', clone_impl (example_c 5 1) (world_one_slot 5) = Some (c', w') /\
                hash_impl (HS := Z) c' [] w' = Some ([5], w').
Proof.
  assert (Hb : heap_bounded (world_one_slot 5))
    by (apply (bool_decide_unpack _); vm_compute; reflexivity).
  assert (H : is_Some (heap (world_one_slot 5) !! cell (hash (example_c 5 1))))
    by (eexists; reflexivity).
  split; [exact Hb|]. split; [exact H|].
  destruct (clone_preserves_cache (HS := Z) (H2 := list Z) (example_c 5 1) _ Hb H)
    as [c' [w' [H1 [_ [_ [_ [_ [_ [_ [H2 _]]]]]]]]]].
  exists c', w'. split; [exact H1|]. exact (H2 5 [] eq_refl).
Defined.

Lemma operations_total_witness :
  is_Some (heap (world_one_slot 0) !! cell (hash (example_c 0 1))) /\
  is_Some (hash_impl (HS := Z) (example_c 0 1) [] (world_one_slot 0)) /\
  is_Some (Atomic.get (hash (example_c 0 1)) (world_one_slot 0)).
Proof.
  assert (H : is_Some (heap (world_one_slot 0) !! cell (hash (example_c 0 1))))
    by (eexists; reflexivity).
  split; [exact H|].
  destruct (operations_total (HS := Z) (example_c 0 1) _ [] 3 tt H)
    as [_ [_ [_ [H1 [H2 _]]]]].
  split; [exact H1 | exact H2].
Defined.

Lemma frame_invalidate_get_mut_witness :
  is_Some (heap (world_one_slot 5) !! cell (hash (example_c 5 1))) /\
  invalidate_hash (example_c 5 1) (world_one_slot 5)
    = Some (example_c 5 1, mkWorld (<[1%positive := 0]> {[1%positive := 5]}) 2%positive []) /\
  (forall c' w'', run_hops (HS := Z) (example_c 5 1) [HHash []; HInvalidate; HHash [1]]
                    (world_one_slot 5) = Some (c', w'') ->
     take_value c' = 5).
Proof.
  assert (H : is_Some (heap (world_one_slot 5) !! cell (hash (example_c 5 1))))
    by (eexists; reflexivity).
  split; [exact H|].
  destruct (frame_invalidate_get_mut (HS := Z) (H2 := list Z) (example_c 5 1) _ H)
    as [[H1 _] H2].
  split; [exact H1|].
  intros c' w'' Hrun. exact (proj1 (H2 _ _ _ Hrun)).
Defined.

End Witnesses.

Module ExtraWitnesses.
Import CachedHash CachedHashProofs AtomicProofs CachedHashExtra.

Lemma get_get_raw_agree_witness :
  is_Some (heap (world_one_slot 7) !! cell (mkAtomic 1)) /\
  exists o, Atomic.get (mkAtomic 1) (world_one_slot 7) = Some (o, world_one_slot 7) /\
            Atomic.get_raw (mkAtomic 1) (world_one_slot 7)
              = Some (option_map nz_into o, world_one_slot 7).
Proof.
  assert (H : is_Some (heap (world_one_slot 7) !! cell (mkAtomic 1))) by (eexists; reflexivity).
  split; [exact H|]. exact (get_get_raw_agree _ _ H).
Defined.

Lemma set_set_last_wins_witness :
  is_Some (heap (world_one_slot 7) !! cell (mkAtomic 1)) /\
  (_ <- Atomic.set (mkAtomic 1) (NonZeroU64_new 3) ;; Atomic.set (mkAtomic 1) None)
    (world_one_slot 7) = Atomic.set (mkAtomic 1) None (world_one_slot 7).
Proof.
  assert (H : is_Some (heap (world_one_slot 7) !! cell (mkAtomic 1))) by (eexists; reflexivity).
  split; [exact H|]. exact (set_set_last_wins _ _ _ _ H).
Defined.

Lemma fmt_shows_word_witness :
  heap (world_one_slot 42) !! cell (mkAtomic 1) = Some 42 /\
  Atomic.fmt (mkAtomic 1) (world_one_slot 42) = Some ("Some(42)"%string, world_one_slot 42).
Proof.
  assert (H : heap (world_one_slot 42) !! cell (mkAtomic 1) = Some 42) by reflexivity.
  split; [exact H|].
  rewrite (proj1 (fmt_shows_word _ _ _ _ _ H H)). vm_compute. reflexivity.
Defined.

Lemma new_fresh_empty_slot_witness :
  heap_bounded (world_one_slot 5) /\
  exists c w', new_with_build_hasher (7 : Z) tt (world_one_slot 5) = Some (c, w') /\
               heap (world_one_slot 5) !! cell (hash c) = None /\
               heap w' !! cell (hash c) = Some 0.
Proof.
  assert (Hb : heap_bounded (world_one_slot 5))
    by (apply (bool_decide_unpack _); vm_compute; reflexivity).
  split; [exact Hb|].
  destruct (proj2 (proj2 (new_fresh_empty_slot (7 : Z) tt _ Hb)))
    as [c [w' [H1 [_ [_ [H2 [H3 _]]]]]]].
  exists c, w'. split; [exact H1|]. split; [exact H2 | exact H3].
Defined.

Lemma hash_after_get_mut_write_witness :
  is_Some (heap (world_one_slot 5) !! cell (hash (example_c 5 1))) /\
  exists w', (p <- get_mut (example_c 5 1) ;;
              hash_impl (HS := Z) (write_through p.1 p.2 (fun x => x + 1)) ([] : list Z))
               (world_one_slot 5) = Some ([6], w').
Proof.
  assert (H : is_Some (heap (world_one_slot 5) !! cell (hash (example_c 5 1))))
    by (eexists; reflexivity).
  split; [exact H|].
  destruct (hash_after_get_mut_write (HS := Z) (example_c 5 1) (fun x => x + 1) ([] : list Z) _ H)
    as [w' [E _]].
  exists w'. exact E.
Defined.

Lemma hash_impl_effect_witness :
  is_Some (heap (world_one_slot 0) !! cell (hash (example_c 0 1))) /\
  exists d w', hash_impl (HS := Z) (example_c 0 1) ([] : list Z) (world_one_slot 0)
                 = Some ([d], w') /\ d <> 0.
Proof.
  assert (H : is_Some (heap (world_one_slot 0) !! cell (hash (example_c 0 1))))
    by (eexists; reflexivity).
  split; [exact H|].
  destruct (hash_impl_effect (HS := Z) (example_c 0 1) ([] : list Z) _ H)
    as [d [w' [E [Hd _]]]].
  exists d, w'. split; [exact E | exact Hd].
Defined.

Lemma clone_hashes_same_witness :
  heap_bounded (world_one_slot 5) /\
  heap (world_one_slot 5) !! cell (hash (example_c 5 1)) = Some 5 /\
  exists w', (c' <- clone_impl (example_c 5 1) ;; s1 <- hash_impl (HS := Z) (example_c 5 1) ([] : list Z) ;;
              s2 <- hash_impl (HS := Z) c' ([] : list Z) ;; ret (s1, s2)) (world_one_slot 5)
               = Some (([5], [5]), w').
Proof.
  assert (Hb : heap_bounded (world_one_slot 5))
    by (apply (bool_decide_unpack _); vm_compute; reflexivity).
  assert (Hz : heap (world_one_slot 5) !! cell (hash (example_c 5 1)) = Some 5) by reflexivity.
  split; [exact Hb|]. split; [exact Hz|].
  exact (clone_hashes_same (HS := Z) (example_c 5 1) ([] : list Z) _ 5 Hb Hz
           (fun _ => eq_refl) eq_refl).
Defined.

Lemma invalidate_hash_idempotent_witness :
  is_Some (heap (world_one_slot 5) !! cell (hash (example_c 5 1))) /\
  (c' <- invalidate_hash (example_c 5 1) ;; invalidate_hash c') (world_one_slot 5)
    = invalidate_hash (example_c 5 1) (world_one_slot 5).
Proof.
  assert (H : is_Some (heap (world_one_slot 5) !! cell (hash (example_c 5 1))))
    by (eexists; reflexivity).
  split; [exact H|]. exact (invalidate_hash_idempotent _ _ H).
Defined.

End ExtraWitnesses.
